(** * The mssql [Apply] from-clause (dialects/mssql/apply.py, ext.py)

    A shallow embedding of the [Apply] construct: a correlated join
    between a left and a right relation, in its inner (CROSS APPLY) and
    outer (OUTER APPLY) forms.

    Python objects are compared with [is]; every relation node therefore
    carries the identity of the object it stands for.  Methods that only
    read are pure functions over the expression tree; construction runs in
    a small monad over the object store, with exceptions. *)

From stdpp Require Import base gmap strings list.

(** ** Columns *)

Abbreviation ForeignKey := string (only parsing).

(** A column as [_populate_column_collection] sees it: its identity, the
    disambiguated label key [col._key_label] and [col.foreign_keys]. *)
Record Column := mkColumn {
  column_oid : nat;
  _key_label : string;
  column_foreign_keys : gset ForeignKey
}.

(** ** Relation expressions *)

(** The relations an [Apply] is built from.  [Table] stands for a base
    relation of the library (table, alias, table-valued function),
    [FromGrouping] for the parenthesising wrapper of sql.selectable, and
    [ApplyFC] for an [Apply] used as a from-clause.  The attributes
    [left], [right] and [isouter] are assigned once, in [__init__]. *)
Inductive FromClause :=
  | Table (oid : nat) (name : string) (cols : list Column)
  | FromGrouping (oid : nat) (element : FromClause)
  | ApplyFC (a : Apply)
with Apply :=
  | mkApply (oid : nat) (left right : FromClause) (isouter : bool).

Definition apply_oid (a : Apply) : nat := let 'mkApply o _ _ _ := a in o.
Definition left (a : Apply) : FromClause := let 'mkApply _ l _ _ := a in l.
Definition right (a : Apply) : FromClause := let 'mkApply _ _ r _ := a in r.
Definition isouter (a : Apply) : bool := let 'mkApply _ _ _ o := a in o.

Coercion ApplyFC : Apply >-> FromClause.

Scheme FromClause_mut := Induction for FromClause Sort Prop
  with Apply_mut := Induction for Apply Sort Prop.
Combined Scheme FromClause_Apply_ind from FromClause_mut, Apply_mut.

(** [id(x)], and Python's [x is y]. *)
Definition id_ (f : FromClause) : nat :=
  match f with
  | Table o _ _ => o
  | FromGrouping o _ => o
  | ApplyFC a => apply_oid a
  end.

Definition is_ (x y : FromClause) : bool := Nat.eqb (id_ x) (id_ y).

(** Every object identity that occurs in a relation tree. *)
Fixpoint oids (f : FromClause) : list nat :=
  match f with
  | Table o _ _ => [o]
  | FromGrouping o e => o :: oids e
  | ApplyFC a => Apply_oids a
  end
with Apply_oids (a : Apply) : list nat :=
  match a with
  | mkApply o l r _ => o :: oids l ++ oids r
  end.

(** ** Ancestry: [is_derived_from] *)

(** [Apply.is_derived_from] (apply.py, lines 110-115), with the dispatch
    on the receiver.

    Modelled from the spec: the ancestry answers of the relations that
    sql.selectable defines are not part of apply.py.  A base relation
    answers for itself; a grouping only adds parentheses and answers with
    the relation it wraps. *)
Fixpoint is_derived_from (self : FromClause) (fromclause : FromClause) : bool :=
  match self with
  | Table _ _ _ => is_ fromclause self
  | FromGrouping _ element => is_derived_from element fromclause
  | ApplyFC a => Apply_is_derived_from a fromclause
  end
with Apply_is_derived_from (self : Apply) (fromclause : FromClause) : bool :=
  match self with
  | mkApply _ l r _ =>
      is_ fromclause (ApplyFC self)
      || is_derived_from l fromclause
      || is_derived_from r fromclause
  end.

(** ** From-object flattening: [_from_objects] *)

(** [Apply._from_objects] (apply.py, lines 174-176), with the dispatch on
    the receiver.

    Modelled from the spec: the [_from_objects] of the relations that
    sql.selectable defines.  A base relation contributes itself; a
    grouping contributes what the wrapped relation contributes. *)
Fixpoint _from_objects (self : FromClause) : list FromClause :=
  match self with
  | Table _ _ _ => [self]
  | FromGrouping _ element => _from_objects element
  | ApplyFC a => Apply_from_objects a
  end
with Apply_from_objects (self : Apply) : list FromClause :=
  match self with
  | mkApply _ l r _ => [ApplyFC self] ++ _from_objects l ++ _from_objects r
  end.

Module sql_base.
(** Modelled from the spec: the helper [_from_objects] of sql.base,
    called with several elements, which flattens the from-objects that each of its
    arguments contributes, in argument order. *)
Definition _from_objects (elements : list FromClause) : list FromClause :=
  flat_map _from_objects elements.
End sql_base.

(** [Apply._hide_froms] (apply.py, lines 168-172).  The clone set of a
    node is kept by the tree-aliasing machinery of sql.elements; it is a
    parameter here, enumerated in the iteration order of the set. *)
Section HideFroms.
Variable _cloned_set : Apply → list Apply.

Definition _hide_froms (self : Apply) : list FromClause :=
  concat (map (λ x, sql_base._from_objects [left x; right x])
              (_cloned_set self)).
End HideFroms.

(** ** Column population *)

(** The key-unique, insertion-ordered column mapping, and the foreign
    keys collected with it. *)
Record Collections := mkCollections {
  _columns : list (string * Column);
  foreign_keys : gset ForeignKey
}.

(** Modelled from the spec: the collections of a relation before its
    first column access (the Unpopulated state of the lazy cache). *)
Definition _init_collections : Collections :=
  {| _columns := []; foreign_keys := ∅ |}.

(** Modelled from the spec: one keyed insertion into the column mapping.
    A new key is appended; on a key that is present the later column
    silently takes the slot. *)
Fixpoint put (k : string) (c : Column) (m : list (string * Column))
  : list (string * Column) :=
  match m with
  | [] => [(k, c)]
  | (k', c') :: m' =>
      if decide (k = k') then (k, c) :: m' else (k', c') :: put k c m'
  end.

(** Modelled from the spec: [ColumnCollection._populate_separate_keys] of
    sql.base, which inserts the (key, column) pairs in iteration order. *)
Definition _populate_separate_keys
    (m : list (string * Column)) (items : list (string * Column))
  : list (string * Column) :=
  foldl (λ acc item, put item.1 item.2 acc) m items.

(** [Apply._populate_column_collection] (apply.py, lines 120-133), and
    the [columns] of a relation.  The columns of an [Apply] are those of
    its collection, populated on first access. *)
Fixpoint columns (self : FromClause) : list Column :=
  match self with
  | Table _ _ cols => cols
  | FromGrouping _ element => columns element
  | ApplyFC a => (_populate_column_collection a _init_collections).(_columns).*2
  end
with _populate_column_collection (self : Apply) (st : Collections) : Collections :=
  match self with
  | mkApply _ l r _ =>
      let columns_ := columns l ++ columns r in
      {| _columns :=
           _populate_separate_keys st.(_columns)
             ((λ col, (col.(_key_label), col)) <$> columns_);
         foreign_keys :=
           st.(foreign_keys) ∪ ⋃ (column_foreign_keys <$> columns_) |}
  end.

(** ** New-column notifications *)

(** What a notification does is left to each relation; the order in which
    the relations are notified is recorded. [BaseRefresh o c] is the base
    [FromClause._refresh_for_new_column] running for the node [o] (the
    [super] call of apply.py, line 136); [OwnRefresh o c] is the refresh
    logic of a relation defined elsewhere. *)
Inductive Event :=
  | BaseRefresh (who : nat) (column : Column)
  | OwnRefresh (who : nat) (column : Column).

(** [Apply._refresh_for_new_column] (apply.py, lines 135-138). *)
Fixpoint _refresh_for_new_column (self : FromClause) (column : Column)
  : list Event :=
  match self with
  | Table o _ _ => [OwnRefresh o column]
  | FromGrouping o _ => [OwnRefresh o column]
  | ApplyFC a => Apply_refresh_for_new_column a column
  end
with Apply_refresh_for_new_column (self : Apply) (column : Column)
  : list Event :=
  match self with
  | mkApply o l r _ =>
      [BaseRefresh o column]
      ++ _refresh_for_new_column l column
      ++ _refresh_for_new_column r column
  end.

(** ** Python values, exceptions and the object store *)

(** What a caller may hand to a constructor: a relation, or some other
    value. *)
Inductive PyObject :=
  | PyNone
  | PyBool (b : bool)
  | PyInt (n : Z)
  | PyStr (s : string)
  | PyFromClause (f : FromClause).

Inductive Exception :=
  | TypeConversionError (culprit : PyObject)
  | TypeError (message : string)
  | AttributeError (attribute : string).

(** The instance dictionary of an [Apply] while [__init__] runs: an
    attribute is absent until it is assigned. *)
Record ApplyDict := mkApplyDict {
  d_left : option FromClause;
  d_right : option FromClause;
  d_isouter : option bool
}.

Definition blank : ApplyDict :=
  {| d_left := None; d_right := None; d_isouter := None |}.

(** The objects that exist: the next free identity, and the instance
    dictionaries of the [Apply] objects allocated so far. *)
Record World := mkWorld {
  next_oid : nat;
  instances : gmap nat ApplyDict
}.

(** Objects that existed before a construction keep their attributes. *)
Definition preserves (w w' : World) : Prop :=
  ∀ o, o < next_oid w → instances w' !! o = instances w !! o.

(** Computations that may allocate, assign attributes and raise. *)
Definition M (A : Type) : Type := World → (Exception + A) * World.

Definition ret {A} (x : A) : M A := λ w, (inr x, w).

Definition raise {A} (e : Exception) : M A := λ w, (inl e, w).

Definition bind {A B} (m : M A) (k : A → M B) : M B :=
  λ w, match m w with
       | (inr x, w') => k x w'
       | (inl e, w') => (inl e, w')
       end.

Declare Scope py_scope.
Delimit Scope py_scope with py.
Notation "x <- m ;; k" := (bind m (λ x, k))
  (at level 100, m at next level, right associativity) : py_scope.
Notation "m ;;; k" := (bind m (λ _, k))
  (at level 100, right associativity) : py_scope.

(** A new object of the library: takes the next identity. *)
Definition alloc : M nat :=
  λ w, (inr (next_oid w),
        {| next_oid := S (next_oid w); instances := instances w |}).

(** [object.__new__(Apply)]: a new instance with an empty dictionary. *)
Definition new_instance : M nat :=
  λ w, (inr (next_oid w),
        {| next_oid := S (next_oid w);
           instances := <[next_oid w := blank]> (instances w) |}).

(** [self.attr = value] *)
Definition setattr (self : nat) (assign : ApplyDict → ApplyDict) : M unit :=
  λ w, (inr tt,
        {| next_oid := next_oid w;
           instances := alter assign self (instances w) |}).

Definition set_left (v : FromClause) (d : ApplyDict) : ApplyDict :=
  {| d_left := Some v; d_right := d_right d; d_isouter := d_isouter d |}.
Definition set_right (v : FromClause) (d : ApplyDict) : ApplyDict :=
  {| d_left := d_left d; d_right := Some v; d_isouter := d_isouter d |}.
Definition set_isouter (v : bool) (d : ApplyDict) : ApplyDict :=
  {| d_left := d_left d; d_right := d_right d; d_isouter := Some v |}.

(** The constructed object, read back through its attributes. *)
Definition instance (self : nat) : M Apply :=
  λ w, match instances w !! self with
       | Some d =>
           match d_left d, d_right d, d_isouter d with
           | Some l, Some r, Some o => (inr (mkApply self l r o), w)
           | None, _, _ => (inl (AttributeError "left"), w)
           | _, None, _ => (inl (AttributeError "right"), w)
           | _, _, None => (inl (AttributeError "isouter"), w)
           end
       | None => (inl (AttributeError "__dict__"), w)
       end.

(** ** Coercion and grouping *)

(** Modelled from the spec: [coercions.expect(roles.FromClauseRole, x)]
    of sql.coercions.  A relation is accepted as it is; a value that
    cannot be interpreted as a relation is refused with a type-conversion
    error. *)
Definition coerce (x : PyObject) : Exception + FromClause :=
  match x with
  | PyFromClause f => inr f
  | _ => inl (TypeConversionError x)
  end.

Definition expect_FromClauseRole (x : PyObject) : M FromClause :=
  match coerce x with
  | inr f => ret f
  | inl e => raise e
  end.

(** Modelled from the spec: [FromGrouping(element)] of sql.selectable, a
    new wrapper object around [element]. *)
Definition FromGrouping_call (element : FromClause) : M FromClause :=
  (o <- alloc ;; ret (FromGrouping o element))%py.

(** [Apply.self_group] (apply.py, lines 117-118). *)
Definition Apply_self_group (self : Apply) (against : option string)
  : M FromClause :=
  FromGrouping_call (ApplyFC self).

(** [x.self_group(against)], with the dispatch on the receiver.

    Modelled from the spec: in the base relation contract grouping does
    not wrap again, so a base relation and a grouping return themselves. *)
Definition self_group (self : FromClause) (against : option string)
  : M FromClause :=
  match self with
  | Table _ _ _ => ret self
  | FromGrouping _ _ => ret self
  | ApplyFC a => Apply_self_group a against
  end.

(** ** Construction *)

(** [Apply.__init__] (apply.py, lines 43-55). *)
Definition __init__ (self : nat) (left right : PyObject) (isouter : bool)
  : M unit :=
  (l <- expect_FromClauseRole left ;;
   setattr self (set_left l) ;;;
   r <- expect_FromClauseRole right ;;
   g <- self_group r None ;;
   setattr self (set_right g) ;;;
   setattr self (set_isouter isouter))%py.

(** [cls(left, right, isouter)]: allocate, initialise, hand out.
    [isouter] defaults to [False]. *)
Definition Apply_call (left right : PyObject) (isouter : option bool)
  : M Apply :=
  (self <- new_instance ;;
   __init__ self left right (default false isouter) ;;;
   instance self)%py.

(** [Apply._create_outerapply] (apply.py, lines 57-68). *)
Definition _create_outerapply (left right : PyObject) : M Apply :=
  Apply_call left right (Some true).

(** [Apply._create_apply] (apply.py, lines 70-99); [isouter] defaults to
    [False] and is handed on positionally. *)
Definition _create_apply (left right : PyObject) (isouter : option bool)
  : M Apply :=
  Apply_call left right (Some (default false isouter)).

(** ext.py: the public factories forward to the class methods. *)
Definition apply := _create_apply.
Definition outerapply := _create_outerapply.

(** ** Statement construction *)

(** Modelled from the spec: the select statement of sql.selectable, as
    far as [Apply.select] fills it in: the inputs given as columns, the
    filter criterion, the explicit FROM sources and the remaining
    options. *)
Record Select := mkSelect {
  raw_columns : list FromClause;
  whereclause : PyObject;
  from_obj : list FromClause;
  options : gmap string PyObject
}.

(** Modelled from the spec: every input of a select contributes its own
    column set. *)
Definition selected_columns (s : Select) : list Column :=
  flat_map columns (raw_columns s).

(** Modelled from the spec: the call
    [Select(collist, whereclause, from_obj=..., **kwargs)] of
    sql.selectable.  A keyword given both by name and through [kwargs] is
    refused by the call itself, before the builder runs.  What the
    builder then checks of the criterion and of the options is not part
    of apply.py: [Select_refusal] gives the error that the builder raises
    for a call it does not take, and [None] for a call it takes. *)
Section SelectBuilder.
Variable Select_refusal :
  list FromClause → PyObject → list FromClause → gmap string PyObject
  → option Exception.

Definition Select_call (collist : list FromClause) (where_ : PyObject)
    (from_obj_ : list FromClause) (kwargs : gmap string PyObject)
  : Exception + Select :=
  match kwargs !! "from_obj" with
  | Some _ => inl (TypeError "got multiple values for keyword argument from_obj")
  | None =>
      match Select_refusal collist where_ from_obj_ kwargs with
      | Some e => inl e
      | None => inr (mkSelect collist where_ from_obj_ kwargs)
      end
  end.

(** [Apply.select] (apply.py, lines 140-160); [whereclause] defaults to
    [None]. *)
Definition Apply_select (self : Apply) (where_ : option PyObject)
    (kwargs : gmap string PyObject) : Exception + Select :=
  let collist := [left self; right self] in
  Select_call collist (default PyNone where_) [ApplyFC self] kwargs.
End SelectBuilder.

(** ** Reading a column mapping *)

(** The column stored under a key. *)
Fixpoint get (k : string) (m : list (string * Column)) : option Column :=
  match m with
  | [] => None
  | (k', c) :: m' => if decide (k = k') then Some c else get k m'
  end.

(** The last column that a sequence of (key, column) pairs gives for a
    key. *)
Fixpoint latest (k : string) (items : list (string * Column))
  : option Column :=
  match items with
  | [] => None
  | (k', c) :: rest =>
      match latest k rest with
      | Some c' => Some c'
      | None => if decide (k = k') then Some c else None
      end
  end.

(** The keys of a sequence in the order of their first occurrence. *)
Fixpoint key_order (ks : list string) : list string :=
  match ks with
  | [] => []
  | k :: rest => k :: filter (λ k', k' ≠ k) (key_order rest)
  end.

(** ** The order of notifications that the specification words give *)

(** Both sides first, the base refresh of the node last. *)
Definition refresh_sides_then_base (self : Apply) (column : Column)
  : list Event :=
  _refresh_for_new_column (left self) column
  ++ _refresh_for_new_column (right self) column
  ++ [BaseRefresh (apply_oid self) column].

(** ** Sample objects *)

Module Sample.
Definition col_a : Column := mkColumn 10 "a" ∅.
Definition col_b : Column := mkColumn 11 "b" {["department.id"]}.
Definition col_b' : Column := mkColumn 12 "b" {["employee.id"]}.
Definition col_c : Column := mkColumn 13 "c" ∅.

Definition department : FromClause := Table 1 "department" [col_a; col_b].
Definition reports : FromClause := Table 2 "get_reports" [col_b'; col_c].
Definition audit : FromClause := Table 3 "audit" [].

(** department APPLY get_reports *)
Definition inner : Apply := mkApply 4 department reports false.
(** audit OUTER APPLY (department APPLY get_reports) *)
Definition nested : Apply :=
  mkApply 6 audit (FromGrouping 5 (ApplyFC inner)) true.

(** A store in which the objects above exist. *)
Definition world : World := mkWorld 20 ∅.

(** A clone registry in which every node has [inner] as a clone. *)
Definition clones (a : Apply) : list Apply := [a; inner].
End Sample.

(** ** Binding hint *)

(** [Apply.bind] (apply.py, lines 164-166): [self.left.bind or
    self.right.bind].  The bind of a relation defined elsewhere is a
    parameter; it is an engine, which is a true value, or [None], so that
    [or] hands back the left bind when there is one and the right bind
    otherwise. *)
Section Bind.
Variable relation_bind : FromClause → option string.

Fixpoint FromClause_bind (self : FromClause) : option string :=
  match self with
  | ApplyFC a => Apply_bind a
  | _ => relation_bind self
  end
with Apply_bind (self : Apply) : option string :=
  match self with
  | mkApply _ l r _ =>
      match FromClause_bind l with
      | Some engine => Some engine
      | None => FromClause_bind r
      end
  end.
End Bind.

(** The relations of a tree that are not Apply nodes and are reached
    through Apply nodes only, from left to right. *)
Fixpoint sides (f : FromClause) : list FromClause :=
  match f with
  | ApplyFC a => Apply_sides a
  | _ => [f]
  end
with Apply_sides (a : Apply) : list FromClause :=
  match a with
  | mkApply _ l r _ => sides l ++ sides r
  end.

(** The relations whose own refresh logic a trace of notifications ran,
    with the column each was given, in the order of the trace. *)
Definition notified (trace : list Event) : list (nat * Column) :=
  omap (λ ev, match ev with
              | OwnRefresh o c => Some (o, c)
              | BaseRefresh _ _ => None
              end) trace.

(** The Apply nodes whose base refresh a trace ran, in the order of the
    trace. *)
Definition base_refreshed (trace : list Event) : list nat :=
  omap (λ ev, match ev with
              | BaseRefresh o _ => Some o
              | OwnRefresh _ _ => None
              end) trace.

(** The Apply nodes of a tree that are reached through Apply nodes only,
    parents before children, left before right. *)
Fixpoint apply_nodes (f : FromClause) : list nat :=
  match f with
  | ApplyFC a => Apply_apply_nodes a
  | _ => []
  end
with Apply_apply_nodes (a : Apply) : list nat :=
  match a with
  | mkApply o l r _ => o :: apply_nodes l ++ apply_nodes r
  end.

(** ** Further sample objects *)

Module Scenario.
(** A clone registry for nodes that were never cloned. *)
Definition uncloned (a : Apply) : list Apply := [a].

(** department APPLY (department APPLY get_reports), as the constructor
    leaves it in [Sample.world]. *)
Definition regrouped : Apply :=
  mkApply 20 Sample.department (FromGrouping 21 (ApplyFC Sample.inner)) false.

(** department APPLY department, as the constructor leaves it in
    [Sample.world]: the same table on both sides. *)
Definition doubled : Apply :=
  mkApply 20 Sample.department Sample.department false.

(** A select builder that takes no textual criterion and knows the
    option [distinct] only. *)
Definition builder (collist : list FromClause) (where_ : PyObject)
    (from_obj_ : list FromClause) (kwargs : gmap string PyObject)
  : option Exception :=
  match where_ with
  | PyStr _ => Some (TypeConversionError where_)
  | _ =>
      if decide (dom kwargs ⊆ ({["distinct"]} : gset string))
      then None
      else Some (TypeError "unexpected keyword argument")
  end.
End Scenario.

(** * Properties *)

(** ** From-object flattening *)

Example nested_from_objects :
  _from_objects Sample.nested
  = [ApplyFC Sample.nested; Sample.audit;
     ApplyFC Sample.inner; Sample.department; Sample.reports].
Proof. reflexivity. Qed.

(** C2: the from-objects of an Apply are the Apply itself, then the
    from-objects of its left side, then those of its right side, whatever
    the sides are (tables, groupings or further Apply nodes). *)
Theorem Apply_from_objects_order (a : Apply) :
  _from_objects (ApplyFC a)
  = ApplyFC a :: _from_objects (left a) ++ _from_objects (right a).
Proof. destruct a as [o l r b]. reflexivity. Qed.

(** ** Ancestry *)

Lemma is_true_iff (x y : FromClause) : is_ x y = true ↔ id_ x = id_ y.
Proof. unfold is_. apply Nat.eqb_eq. Qed.

Lemma is_refl (x : FromClause) : is_ x x = true.
Proof. apply is_true_iff. reflexivity. Qed.

Lemma Apply_is_derived_from_unfold (a : Apply) (x : FromClause) :
  Apply_is_derived_from a x
  = is_ x (ApplyFC a)
    || is_derived_from (left a) x
    || is_derived_from (right a) x.
Proof. destruct a as [o l r b]. reflexivity. Qed.

(** A relation whose identity occurs nowhere in a tree is not an
    ancestor of that tree. *)
Lemma is_derived_from_unrelated :
  (∀ f x, id_ x ∉ oids f → is_derived_from f x = false)
  ∧ (∀ a x, id_ x ∉ Apply_oids a → Apply_is_derived_from a x = false).
Proof.
  apply FromClause_Apply_ind.
  - intros o n cols x Hx. simpl in *.
    apply not_true_is_false. intros Heq%is_true_iff. simpl in Heq.
    apply Hx. rewrite Heq. apply list_elem_of_here.
  - intros o e IH x Hx. simpl in *. apply IH.
    intros Hin. apply Hx. by apply list_elem_of_further.
  - intros a IH x Hx. simpl in *. by apply IH.
  - intros o l IHl r IHr b x Hx. simpl in *.
    rewrite not_elem_of_cons, not_elem_of_app in Hx.
    destruct Hx as (Hne & Hl & Hr).
    rewrite (IHl x Hl), (IHr x Hr), !orb_false_r.
    apply not_true_is_false. intros Heq%is_true_iff. simpl in Heq. done.
Qed.

(** Tables and Apply nodes recognise themselves. *)
Lemma Table_is_derived_from_self (o : nat) (n : string) (cols : list Column) :
  is_derived_from (Table o n cols) (Table o n cols) = true.
Proof. simpl. apply is_refl. Qed.

Lemma Apply_is_derived_from_self (a : Apply) :
  is_derived_from (ApplyFC a) (ApplyFC a) = true.
Proof. simpl. rewrite Apply_is_derived_from_unfold, is_refl. reflexivity. Qed.

(** A relation that is not a grouping recognises itself. *)
Lemma is_derived_from_self (f : FromClause) :
  (∀ o e, f ≠ FromGrouping o e) → is_derived_from f f = true.
Proof.
  destruct f as [o n cols|o e|a]; intros Hng.
  - apply Table_is_derived_from_self.
  - by destruct (Hng o e).
  - apply Apply_is_derived_from_self.
Qed.

(** C3, as stated, fails for "true when x is right": an Apply given as
    the right argument is stored inside a grouping, and the Apply that is
    constructed does not derive from that grouping. *)
Lemma is_derived_from_right_counterexample :
  ∃ w', Apply_call (PyFromClause Sample.department)
          (PyFromClause (ApplyFC Sample.inner)) None Sample.world
        = (inr Scenario.regrouped, w')
        ∧ is_derived_from (ApplyFC Scenario.regrouped)
            (right Scenario.regrouped) = false.
Proof. eexists. split; reflexivity. Qed.

(** C3 (amended): [is_derived_from] answers true exactly for the Apply
    itself and for what the left or the right side derive from, the left
    side being asked first.  So it is true for the node, for every
    ancestor of a side, and for a side that recognises itself, which
    every side other than a grouping does; it is false for a relation
    that is neither the node nor an ancestor of a side, in particular for
    one whose identity occurs nowhere in the tree. *)
Theorem Apply_is_derived_from_spec (a : Apply) (x : FromClause) :
  (is_derived_from (ApplyFC a) x = true
     ↔ is_ x (ApplyFC a) = true
       ∨ is_derived_from (left a) x = true
       ∨ is_derived_from (right a) x = true)
  ∧ is_derived_from (ApplyFC a) x
    = (if is_ x (ApplyFC a) then true
       else if is_derived_from (left a) x then true
       else is_derived_from (right a) x)
  ∧ is_derived_from (ApplyFC a) (ApplyFC a) = true
  ∧ (is_derived_from (left a) (left a) = true
       → is_derived_from (ApplyFC a) (left a) = true)
  ∧ (is_derived_from (right a) (right a) = true
       → is_derived_from (ApplyFC a) (right a) = true)
  ∧ (is_ x (ApplyFC a) = false
       → is_derived_from (left a) x = false
       → is_derived_from (right a) x = false
       → is_derived_from (ApplyFC a) x = false)
  ∧ (id_ x ∉ oids (ApplyFC a) → is_derived_from (ApplyFC a) x = false)
  ∧ ((∀ o e, left a ≠ FromGrouping o e)
       → is_derived_from (ApplyFC a) (left a) = true)
  ∧ ((∀ o e, right a ≠ FromGrouping o e)
       → is_derived_from (ApplyFC a) (right a) = true).
Proof.
  assert (Hunfold : ∀ y, is_derived_from (ApplyFC a) y
    = is_ y (ApplyFC a) || is_derived_from (left a) y
      || is_derived_from (right a) y).
  { intros y. simpl. apply Apply_is_derived_from_unfold. }
  repeat split.
  - rewrite Hunfold, !orb_true_iff. tauto.
  - rewrite Hunfold, !orb_true_iff. tauto.
  - rewrite Hunfold. by destruct (is_ x a), (is_derived_from (left a) x).
  - apply Apply_is_derived_from_self.
  - intros H. rewrite Hunfold, H, orb_true_r. reflexivity.
  - intros H. rewrite Hunfold, H, orb_true_r. reflexivity.
  - intros H1 H2 H3. rewrite Hunfold, H1, H2, H3. reflexivity.
  - apply (proj1 is_derived_from_unrelated).
  - intros H. rewrite Hunfold, (is_derived_from_self _ H), orb_true_r.
    reflexivity.
  - intros H. rewrite Hunfold, (is_derived_from_self _ H), orb_true_r.
    reflexivity.
Qed.

Lemma Apply_is_derived_from_spec_witness :
  is_derived_from (ApplyFC Sample.inner) Sample.department = true
  ∧ is_derived_from (ApplyFC Sample.inner) Sample.reports = true
  ∧ is_derived_from (ApplyFC Sample.nested) Sample.department = true
  ∧ is_derived_from (ApplyFC Sample.inner) Sample.audit = false
  ∧ is_derived_from (ApplyFC Scenario.regrouped)
      (left Scenario.regrouped) = true.
Proof.
  split; [|split; [|split; [|split]]].
  - destruct (Apply_is_derived_from_spec Sample.inner Sample.department)
      as (_ & _ & _ & Hleft & _).
    apply Hleft. reflexivity.
  - destruct (Apply_is_derived_from_spec Sample.inner Sample.reports)
      as (_ & _ & _ & _ & Hright & _).
    apply Hright. reflexivity.
  - destruct (Apply_is_derived_from_spec Sample.nested Sample.department)
      as (Hiff & _).
    apply Hiff. right. right. reflexivity.
  - destruct (Apply_is_derived_from_spec Sample.inner Sample.audit)
      as (_ & _ & _ & _ & _ & Hnone & _).
    apply Hnone; reflexivity.
  - destruct (Apply_is_derived_from_spec Scenario.regrouped Sample.audit)
      as (_ & _ & _ & _ & _ & _ & _ & Hleft & _).
    apply Hleft. intros o e. discriminate.
Defined.

(** ** Grouping *)

(** C5: whatever the context hint, [self_group] returns a new from-grouping
    whose wrapped element is the Apply; the result is never the Apply
    itself and does not depend on the hint. *)
Theorem Apply_self_group_wraps (a : Apply) (against : option string)
    (w : World) :
  ∃ g w',
    self_group (ApplyFC a) against w = (inr g, w')
    ∧ g = FromGrouping (next_oid w) (ApplyFC a)
    ∧ g ≠ ApplyFC a
    ∧ ∀ against', self_group (ApplyFC a) against' w = (inr g, w').
Proof.
  eexists _, _. split; [reflexivity|].
  split; [reflexivity|]. split; [discriminate|]. reflexivity.
Qed.

(** ** New-column notifications *)

(** C4, as stated, fails: the order in which both sides are notified
    before the base refresh of the node is not the order of the code,
    where the base refresh comes first. *)
Lemma refresh_order_counterexample :
  Apply_refresh_for_new_column Sample.inner Sample.col_c
  ≠ refresh_sides_then_base Sample.inner Sample.col_c.
Proof. discriminate. Qed.

(** C4 (amended): a new-column notification first runs the base refresh
    of the Apply node itself, then is handed to the left side, then to the
    right side. *)
Theorem Apply_refresh_order (a : Apply) (column : Column) :
  _refresh_for_new_column (ApplyFC a) column
  = BaseRefresh (apply_oid a) column
    :: _refresh_for_new_column (left a) column
    ++ _refresh_for_new_column (right a) column.
Proof. destruct a as [o l r b]. reflexivity. Qed.

(** ** Hidden from-objects *)

Lemma sql_base_from_objects_pair (l r : FromClause) :
  sql_base._from_objects [l; r] = _from_objects l ++ _from_objects r.
Proof. unfold sql_base._from_objects. simpl. by rewrite app_nil_r. Qed.

(** C7: [_hide_froms] runs over every clone in the clone set of the node
    and yields, flattened and in that order, the from-objects of the
    clone's left and right sides; nothing else is yielded, and when the
    node is in its own clone set its own sides are covered too. *)
Theorem hide_froms_enumerates_clones
    (_cloned_set : Apply → list Apply) (a : Apply) :
  _hide_froms _cloned_set a
  = flat_map (λ x, _from_objects (left x) ++ _from_objects (right x))
             (_cloned_set a)
  ∧ (∀ f, f ∈ _hide_froms _cloned_set a
          ↔ ∃ x, x ∈ _cloned_set a
                 ∧ f ∈ _from_objects (left x) ++ _from_objects (right x))
  ∧ (a ∈ _cloned_set a →
     ∀ f, f ∈ _from_objects (left a) ++ _from_objects (right a)
          → f ∈ _hide_froms _cloned_set a).
Proof.
  assert (Heq : _hide_froms _cloned_set a
    = flat_map (λ x, _from_objects (left x) ++ _from_objects (right x))
               (_cloned_set a)).
  { unfold _hide_froms. rewrite flat_map_concat_map. f_equal.
    apply map_ext. intros x. apply sql_base_from_objects_pair. }
  assert (Hin : ∀ f, f ∈ _hide_froms _cloned_set a
          ↔ ∃ x, x ∈ _cloned_set a
                 ∧ f ∈ _from_objects (left x) ++ _from_objects (right x)).
  { intros f. rewrite Heq, list_elem_of_In, in_flat_map.
    split; intros (x & Hx & Hf); exists x; split;
      by apply list_elem_of_In. }
  split; [exact Heq|]. split; [exact Hin|].
  intros Hself f Hf. apply Hin. by exists a.
Qed.

Lemma hide_froms_enumerates_clones_witness :
  Sample.audit ∈ _hide_froms Sample.clones Sample.nested
  ∧ Sample.department ∈ _hide_froms Sample.clones Sample.nested.
Proof.
  destruct (hide_froms_enumerates_clones Sample.clones Sample.nested)
    as (_ & Hin & Hself).
  split.
  - apply Hself.
    + apply list_elem_of_here.
    + apply list_elem_of_here.
  - apply Hin. exists Sample.inner. split.
    + apply list_elem_of_further, list_elem_of_here.
    + apply list_elem_of_here.
Defined.

(** ** Column population *)

Section ColumnMapping.
Implicit Types (k : string) (c : Column) (m items : list (string * Column)).

Lemma put_keys k c m :
  (put k c m).*1 = if decide (k ∈ m.*1) then m.*1 else m.*1 ++ [k].
Proof.
  induction m as [|[k' c'] m IH]; csimpl.
  - done.
  - destruct (decide (k = k')) as [->|Hne]; csimpl.
    + destruct (decide (k' ∈ k' :: m.*1)) as [_|Hnin]; [done|].
      exfalso. apply Hnin, list_elem_of_here.
    + rewrite IH.
      destruct (decide (k ∈ m.*1)) as [Hin|Hnin];
        destruct (decide (k ∈ k' :: m.*1)) as [Hin'|Hnin']; try done.
      * exfalso. by apply Hnin', list_elem_of_further.
      * apply elem_of_cons in Hin' as [?|?]; done.
Qed.

Lemma get_put k k' c m :
  get k (put k' c m) = if decide (k = k') then Some c else get k m.
Proof.
  induction m as [|[k'' c''] m IH]; simpl.
  - done.
  - destruct (decide (k' = k'')) as [->|Hne]; simpl.
    + destruct (decide (k = k'')); done.
    + rewrite IH.
      destruct (decide (k = k'')), (decide (k = k')); try done.
      congruence.
Qed.

Lemma get_populate k m items :
  get k (_populate_separate_keys m items)
  = match latest k items with
    | Some c => Some c
    | None => get k m
    end.
Proof.
  unfold _populate_separate_keys.
  revert m. induction items as [|[k' c'] items IH]; intros m; simpl.
  - done.
  - rewrite IH. destruct (latest k items); [done|].
    rewrite get_put. destruct (decide (k = k')); done.
Qed.

Lemma filter_fresh_snoc (seen : list string) k (l : list string) :
  filter (λ k', k' ∉ seen ++ [k]) l
  = filter (λ k', k' ∉ seen) (filter (λ k', k' ≠ k) l).
Proof.
  induction l as [|x l IH]; [done|].
  rewrite !filter_cons. destruct (decide (x ≠ k)) as [Hne|Heq].
  - rewrite filter_cons.
    destruct (decide (x ∉ seen ++ [k])) as [Hx|Hx];
      destruct (decide (x ∉ seen)) as [Hy|Hy].
    + by rewrite IH.
    + exfalso. apply Hy. intros Hin. apply Hx, elem_of_app. by left.
    + exfalso. apply Hx.
      intros [Hin|Hin%list_elem_of_singleton]%elem_of_app; done.
    + done.
  - rewrite decide_False; [done|].
    intros Hx. apply Hx, elem_of_app. right.
    destruct (decide (x = k)) as [->|]; [apply list_elem_of_here|done].
Qed.

Lemma filter_fresh_seen (seen : list string) k (l : list string) :
  k ∈ seen →
  filter (λ k', k' ∉ seen) (filter (λ k', k' ≠ k) l)
  = filter (λ k', k' ∉ seen) l.
Proof.
  intros Hk. induction l as [|x l IH]; [done|].
  rewrite !filter_cons. destruct (decide (x ≠ k)) as [Hne|Heq].
  - rewrite filter_cons. destruct (decide (x ∉ seen)); by rewrite IH.
  - rewrite decide_False; [done|].
    intros Hx. apply Heq. intros ->. done.
Qed.

Lemma populate_keys m items :
  (_populate_separate_keys m items).*1
  = m.*1 ++ filter (λ k', k' ∉ m.*1) (key_order items.*1).
Proof.
  unfold _populate_separate_keys.
  revert m. induction items as [|[k c] items IH]; intros m; csimpl.
  - by rewrite app_nil_r.
  - rewrite IH, put_keys, filter_cons.
    destruct (decide (k ∈ m.*1)) as [Hin|Hnin].
    + rewrite decide_False by (intros H; by apply H).
      by rewrite filter_fresh_seen.
    + rewrite decide_True by done.
      by rewrite <- app_assoc, filter_fresh_snoc.
Qed.

Lemma key_order_NoDup (ks : list string) : NoDup (key_order ks).
Proof.
  induction ks as [|k ks IH]; simpl.
  - constructor.
  - constructor.
    + rewrite list_elem_of_filter. intros [Hne _]. done.
    + by apply NoDup_filter.
Qed.

End ColumnMapping.

Lemma filter_fresh_nil (l : list string) : filter (λ k', k' ∉ []) l = l.
Proof.
  induction l as [|x l IH]; [done|].
  rewrite filter_cons, decide_True by apply not_elem_of_nil.
  by rewrite IH.
Qed.

Lemma populate_column_collection_unfold (a : Apply) (st : Collections) :
  _populate_column_collection a st
  = let columns_ := columns (left a) ++ columns (right a) in
    {| _columns :=
         _populate_separate_keys st.(_columns)
           ((λ col, (col.(_key_label), col)) <$> columns_);
       foreign_keys :=
         st.(foreign_keys) ∪ ⋃ (column_foreign_keys <$> columns_) |}.
Proof. destruct a as [o l r b]. reflexivity. Qed.

Example populate_sample :
  _columns (_populate_column_collection Sample.inner _init_collections)
  = [("a", Sample.col_a); ("b", Sample.col_b'); ("c", Sample.col_c)].
Proof. reflexivity. Qed.

(** C1: populating the columns of an Apply from the unpopulated state
    takes the columns of the left side followed by those of the right
    side, each under its label key.  The keys appear once each, in the
    order of their first occurrence; under every key the mapping holds the
    last column that carries it (so columns [a; b] and [b'; c], where b'
    shares the key of b, give a, b', c); and the foreign keys are exactly
    those of the consumed columns. *)
Theorem populate_column_collection_spec (a : Apply) :
  let consumed := columns (left a) ++ columns (right a) in
  let items := (λ col, (_key_label col, col)) <$> consumed in
  let st := _populate_column_collection a _init_collections in
  (_columns st).*1 = key_order (_key_label <$> consumed)
  ∧ NoDup (_columns st).*1
  ∧ (∀ k, get k (_columns st) = latest k items)
  ∧ (∀ k c, (k, c) ∈ _columns st → latest k items = Some c)
  ∧ (∀ ca cb cb' cc,
       columns (left a) = [ca; cb] → columns (right a) = [cb'; cc] →
       _key_label cb' = _key_label cb →
       _key_label ca ≠ _key_label cb →
       _key_label cc ≠ _key_label cb →
       _key_label cc ≠ _key_label ca →
       _columns st
       = [(_key_label ca, ca); (_key_label cb, cb'); (_key_label cc, cc)])
  ∧ (∀ fk, fk ∈ foreign_keys st
           ↔ ∃ c, c ∈ consumed ∧ fk ∈ column_foreign_keys c)
  ∧ foreign_keys st = ⋃ (column_foreign_keys <$> consumed).
Proof.
  intros consumed items st.
  assert (Hcols : _columns st = _populate_separate_keys [] items).
  { unfold st. rewrite populate_column_collection_unfold. reflexivity. }
  assert (Hfks : foreign_keys st = ⋃ (column_foreign_keys <$> consumed)).
  { unfold st. rewrite populate_column_collection_unfold. simpl.
    apply (left_id_L ∅ (∪)). }
  assert (Hkeys : (_columns st).*1 = key_order (_key_label <$> consumed)).
  { rewrite Hcols, populate_keys. csimpl.
    assert (Hitems : items.*1 = _key_label <$> consumed).
    { unfold items. rewrite <- list_fmap_compose. reflexivity. }
    rewrite Hitems. apply filter_fresh_nil. }
  assert (Hget : ∀ k, get k (_columns st) = latest k items).
  { intros k. rewrite Hcols, get_populate. by destruct (latest k items). }
  assert (Hnodup : NoDup (_columns st).*1).
  { rewrite Hkeys. apply key_order_NoDup. }
  repeat split; try done.
  - intros k c Hin. rewrite <- Hget.
    clear Hcols Hkeys Hget Hfks. revert Hnodup Hin.
    induction (_columns st) as [|[k' c'] m IH]; csimpl; intros Hnd Hin.
    + by apply not_elem_of_nil in Hin.
    + apply NoDup_cons in Hnd as [Hk' Hnd].
      apply elem_of_cons in Hin as [Heq|Hin].
      * inversion Heq; subst. by rewrite decide_True.
      * destruct (decide (k = k')) as [->|Hne]; [|by apply IH].
        exfalso. apply Hk'. apply list_elem_of_fmap. by exists (k', c).
  - intros ca cb cb' cc Hl Hr Hb Hab Hcb Hca.
    rewrite Hcols. unfold items, consumed. rewrite Hl, Hr. csimpl.
    unfold _populate_separate_keys. simpl. rewrite Hb.
    repeat (case_decide; simpl; try congruence).
  - rewrite Hfks, elem_of_union_list.
    intros (X & HX & Hfk). apply list_elem_of_fmap in HX as (c & -> & Hc).
    by exists c.
  - rewrite Hfks, elem_of_union_list. intros (c & Hc & Hfk).
    exists (column_foreign_keys c). split; [|done].
    apply list_elem_of_fmap. by exists c.
Qed.

Lemma populate_column_collection_spec_witness :
  _columns (_populate_column_collection Sample.inner _init_collections)
  = [("a", Sample.col_a); ("b", Sample.col_b'); ("c", Sample.col_c)].
Proof.
  pose proof (populate_column_collection_spec Sample.inner) as H.
  cbv zeta in H. destruct H as (_ & _ & _ & _ & Hex & _).
  apply (Hex Sample.col_a Sample.col_b Sample.col_b' Sample.col_c);
    (reflexivity || discriminate).
Defined.

(** ** Statement construction *)

(** C6, as stated, fails: options that name [from_obj] themselves give
    no statement, since [select] binds [from_obj] itself. *)
Lemma Apply_select_counterexample :
  ¬ ∃ s, Apply_select Scenario.builder Sample.inner None
           {["from_obj" := PyFromClause Sample.audit]} = inr s.
Proof. intros [s Hs]. discriminate. Qed.

(** C6 (amended): when the options do not name [from_obj] and the
    builder takes the call, [select] builds a select statement whose FROM
    source is the one Apply, whose inputs are the left and the right
    side, so that its selected columns are the columns of the left side
    followed by those of the right side, not merged; the criterion is the
    one given ([None] when omitted) and the options arrive unchanged. *)
Theorem Apply_select_spec
    (Select_refusal : list FromClause → PyObject → list FromClause
                      → gmap string PyObject → option Exception)
    (a : Apply) (where_ : option PyObject)
    (kwargs : gmap string PyObject) :
  kwargs !! "from_obj" = None →
  Select_refusal [left a; right a] (default PyNone where_) [ApplyFC a]
    kwargs = None →
  ∃ s, Apply_select Select_refusal a where_ kwargs = inr s
       ∧ from_obj s = [ApplyFC a]
       ∧ raw_columns s = [left a; right a]
       ∧ selected_columns s = columns (left a) ++ columns (right a)
       ∧ whereclause s = default PyNone where_
       ∧ options s = kwargs.
Proof.
  intros Hfree Htaken. unfold Apply_select, Select_call.
  rewrite Hfree, Htaken.
  eexists. split; [reflexivity|]. unfold selected_columns. simpl.
  rewrite app_nil_r. done.
Qed.

Lemma Apply_select_spec_witness :
  ∃ s, Apply_select Scenario.builder Sample.inner None
         {["distinct" := PyBool true]} = inr s
       ∧ from_obj s = [ApplyFC Sample.inner]
       ∧ raw_columns s = [Sample.department; Sample.reports]
       ∧ selected_columns s
         = [Sample.col_a; Sample.col_b; Sample.col_b'; Sample.col_c]
       ∧ whereclause s = PyNone
       ∧ options s = {["distinct" := PyBool true]}.
Proof.
  apply (Apply_select_spec Scenario.builder Sample.inner None
           {["distinct" := PyBool true]}).
  - reflexivity.
  - vm_compute. reflexivity.
Defined.

(** ** Construction *)

Ltac run_call :=
  unfold apply, outerapply, _create_apply, _create_outerapply, Apply_call,
    __init__, expect_FromClauseRole, new_instance, setattr, instance,
    self_group, Apply_self_group, FromGrouping_call, alloc, bind, ret, raise;
  simpl.

Lemma Apply_call_left_refused (left right : PyObject) (iso : option bool)
    (w : World) (e : Exception) :
  coerce left = inl e →
  Apply_call left right iso w
  = (inl e, {| next_oid := S (next_oid w);
               instances := <[next_oid w := blank]> (instances w) |}).
Proof. intros Hl. run_call. rewrite Hl. reflexivity. Qed.

Lemma Apply_call_right_refused (left right : PyObject) (iso : option bool)
    (w : World) (l : FromClause) (e : Exception) :
  coerce left = inr l → coerce right = inl e →
  Apply_call left right iso w
  = (inl e, {| next_oid := S (next_oid w);
               instances := alter (set_left l) (next_oid w)
                              (<[next_oid w := blank]> (instances w)) |}).
Proof. intros Hl Hr. run_call. rewrite Hl. simpl. rewrite Hr. reflexivity. Qed.

Lemma Apply_call_accepted (left right : PyObject) (iso : option bool)
    (w : World) (l r : FromClause) :
  coerce left = inr l → coerce right = inr r →
  ∃ g w',
    Apply_call left right iso w
    = (inr (mkApply (next_oid w) l g (default false iso)), w')
    ∧ (g = r ∨ g = FromGrouping (S (next_oid w)) r)
    ∧ instances w' !! next_oid w
      = Some (mkApplyDict (Some l) (Some g) (Some (default false iso)))
    ∧ preserves w w'.
Proof.
  intros Hl Hr. run_call. rewrite Hl. simpl. rewrite Hr.
  destruct r as [o n cols|o e|b]; simpl;
    rewrite !lookup_alter_eq, lookup_insert_eq; simpl;
    eexists _, _; (split; [reflexivity|]);
    (split; [first [by left | by right]|]);
    (split; [simpl; by rewrite !lookup_alter_eq, lookup_insert_eq|]);
    intros o' Ho'; simpl;
    rewrite !lookup_alter_ne, lookup_insert_ne by lia; reflexivity.
Qed.

(** C8: for relations that coerce, the inner factory [apply(left, right)]
    gives an Apply that is not outer, and the outer factory
    [outerapply(left, right)] gives one that is. *)
Theorem factories_set_isouter (left_ right_ : PyObject) (l r : FromClause)
    (w : World) :
  coerce left_ = inr l → coerce right_ = inr r →
  (∃ a w', apply left_ right_ None w = (inr a, w')
           ∧ left a = l ∧ isouter a = false)
  ∧ (∃ a w', outerapply left_ right_ w = (inr a, w')
             ∧ left a = l ∧ isouter a = true).
Proof.
  intros Hl Hr. split.
  - destruct (Apply_call_accepted left_ right_ (Some false) w l r Hl Hr)
      as (g & w' & Hrun & _).
    eexists _, w'. split; [exact Hrun|]. done.
  - destruct (Apply_call_accepted left_ right_ (Some true) w l r Hl Hr)
      as (g & w' & Hrun & _).
    eexists _, w'. split; [exact Hrun|]. done.
Qed.

Lemma factories_set_isouter_witness :
  (∃ a w', apply (PyFromClause Sample.department)
             (PyFromClause Sample.reports) None Sample.world = (inr a, w')
           ∧ left a = Sample.department ∧ isouter a = false)
  ∧ (∃ a w', outerapply (PyFromClause Sample.department)
               (PyFromClause Sample.reports) Sample.world = (inr a, w')
             ∧ left a = Sample.department ∧ isouter a = true).
Proof.
  apply (factories_set_isouter (PyFromClause Sample.department)
           (PyFromClause Sample.reports) Sample.department Sample.reports
           Sample.world); reflexivity.
Defined.

(** C10: the public [apply] factory takes an optional third argument
    [isouter] and stores it; called with [isouter=True] on relations that
    coerce it gives an outer Apply. *)
Theorem apply_accepts_isouter (left_ right_ : PyObject) (l r : FromClause)
    (w : World) :
  coerce left_ = inr l → coerce right_ = inr r →
  (∃ a w', apply left_ right_ (Some true) w = (inr a, w')
           ∧ isouter a = true)
  ∧ (∀ b, ∃ a w', apply left_ right_ (Some b) w = (inr a, w')
                  ∧ isouter a = b).
Proof.
  intros Hl Hr.
  assert (Hany : ∀ b, ∃ a w', apply left_ right_ (Some b) w = (inr a, w')
                              ∧ isouter a = b).
  { intros b.
    destruct (Apply_call_accepted left_ right_ (Some b) w l r Hl Hr)
      as (g & w' & Hrun & _).
    eexists _, w'. split; [exact Hrun|]. done. }
  split; [apply Hany|exact Hany].
Qed.

Lemma apply_accepts_isouter_witness :
  ∃ a w', apply (PyFromClause Sample.department)
            (PyFromClause Sample.reports) (Some true) Sample.world
          = (inr a, w')
          ∧ isouter a = true.
Proof.
  apply (apply_accepts_isouter (PyFromClause Sample.department)
           (PyFromClause Sample.reports) Sample.department Sample.reports
           Sample.world); reflexivity.
Defined.

(** C9: when the left or the right argument cannot be coerced into a
    relation, construction raises the type-conversion error of the
    coercion itself and hands out no object; every object that existed
    before keeps its attributes.  In general a construction either raises
    such an error or returns an Apply whose three attributes are all
    assigned, and in both cases the objects that existed before are
    untouched. *)
Theorem Apply_construction_atomic (left_ right_ : PyObject)
    (iso : option bool) (w : World) (e : Exception) :
  coerce left_ = inl e
  ∨ (∃ l, coerce left_ = inr l) ∧ coerce right_ = inl e →
  (∃ w', Apply_call left_ right_ iso w = (inl e, w')
         ∧ (∃ culprit, e = TypeConversionError culprit)
         ∧ preserves w w')
  ∧ (∀ left' right' iso', ∃ w',
       preserves w w'
       ∧ ((∃ e', Apply_call left' right' iso' w = (inl e', w')
                 ∧ (coerce left' = inl e' ∨ coerce right' = inl e'))
          ∨ (∃ a, Apply_call left' right' iso' w = (inr a, w')
                  ∧ coerce left' = inr (left a)
                  ∧ instances w' !! apply_oid a
                    = Some (mkApplyDict (Some (left a)) (Some (right a))
                              (Some (isouter a)))))).
Proof.
  assert (Hkind : ∀ x e', coerce x = inl e' →
                          ∃ culprit, e' = TypeConversionError culprit).
  { intros x e' Hx. destruct x; simpl in Hx; inversion Hx; by eexists. }
  intros Hrefused. split.
  - destruct Hrefused as [Hl|[[l Hl] Hr]].
    + rewrite (Apply_call_left_refused _ _ _ _ _ Hl).
      eexists. split; [reflexivity|]. split; [by eapply Hkind|].
      intros o Ho. simpl. by rewrite lookup_insert_ne by lia.
    + rewrite (Apply_call_right_refused _ _ _ _ _ _ Hl Hr).
      eexists. split; [reflexivity|]. split; [by eapply Hkind|].
      intros o Ho. simpl.
      by rewrite lookup_alter_ne, lookup_insert_ne by lia.
  - intros left' right' iso'.
    destruct (coerce left') as [el|l] eqn:Hl.
    + rewrite (Apply_call_left_refused _ _ _ _ _ Hl).
      eexists. split; [|left; eexists; split; [reflexivity|by left]].
      intros o Ho. simpl. by rewrite lookup_insert_ne by lia.
    + destruct (coerce right') as [er|r] eqn:Hr.
      * rewrite (Apply_call_right_refused _ _ _ _ _ _ Hl Hr).
        eexists. split; [|left; eexists; split; [reflexivity|by right]].
        intros o Ho. simpl.
        by rewrite lookup_alter_ne, lookup_insert_ne by lia.
      * destruct (Apply_call_accepted left' right' iso' w l r Hl Hr)
          as (g & w' & Hrun & _ & Hdict & Hpres).
        exists w'. split; [exact Hpres|]. right.
        eexists. split; [exact Hrun|]. split; [reflexivity|exact Hdict].
Qed.

Lemma Apply_construction_atomic_witness :
  ∃ w', Apply_call (PyFromClause Sample.department) (PyInt 7) None
          Sample.world
        = (inl (TypeConversionError (PyInt 7)), w')
        ∧ preserves Sample.world w'.
Proof.
  destruct (Apply_construction_atomic (PyFromClause Sample.department)
              (PyInt 7) None Sample.world (TypeConversionError (PyInt 7)))
    as [(w' & Hrun & _ & Hpres) _].
  - right. split; [by eexists|reflexivity].
  - exists w'. split; [exact Hrun|exact Hpres].
Defined.

(** * Further properties of the code *)

(** ** What a successful construction hands out *)

Lemma Apply_call_inv (left_ right_ : PyObject) (iso : option bool)
    (w w' : World) (a : Apply) :
  Apply_call left_ right_ iso w = (inr a, w') →
  ∃ r, coerce left_ = inr (left a) ∧ coerce right_ = inr r
       ∧ apply_oid a = next_oid w
       ∧ isouter a = default false iso
       ∧ match r with
         | ApplyFC _ =>
             right a = FromGrouping (S (next_oid w)) r
             ∧ next_oid w' = S (S (next_oid w))
         | _ => right a = r ∧ next_oid w' = S (next_oid w)
         end.
Proof.
  intros Hrun.
  destruct (coerce left_) as [el|l] eqn:Hl.
  { rewrite (Apply_call_left_refused _ _ _ _ _ Hl) in Hrun. discriminate. }
  destruct (coerce right_) as [er|r] eqn:Hr.
  { rewrite (Apply_call_right_refused _ _ _ _ _ _ Hl Hr) in Hrun.
    discriminate. }
  exists r. revert Hrun. run_call. rewrite Hl. simpl. rewrite Hr.
  destruct r as [o n cols|o e|b]; simpl;
    rewrite !lookup_alter_eq, lookup_insert_eq; simpl;
    intros Hrun; inversion Hrun; subst; simpl; done.
Qed.

(** X1: a successful construction means that both arguments were accepted
    by the coercion.  The left argument is stored as it is, also when it
    is an Apply; a right argument that is an Apply is stored inside one
    new grouping, allocated right after the Apply itself; any other right
    argument is stored as it is. *)
Theorem constructed_sides (left_ right_ : PyObject) (iso : option bool)
    (w w' : World) (a : Apply) :
  Apply_call left_ right_ iso w = (inr a, w') →
  coerce left_ = inr (left a)
  ∧ ∃ r, coerce right_ = inr r
         ∧ match r with
           | ApplyFC _ => right a = FromGrouping (S (apply_oid a)) r
           | _ => right a = r
           end.
Proof.
  intros Hrun. destruct (Apply_call_inv _ _ _ _ _ _ Hrun)
    as (r & Hl & Hr & Hoid & _ & Hright).
  split; [exact Hl|]. exists r. split; [exact Hr|].
  rewrite Hoid. destruct r as [o n cols|o e|b]; apply Hright.
Qed.

Lemma constructed_sides_witness :
  ∃ a w',
    Apply_call (PyFromClause Sample.department)
      (PyFromClause (ApplyFC Sample.inner)) None Sample.world = (inr a, w')
    ∧ left a = Sample.department
    ∧ right a = FromGrouping 21 (ApplyFC Sample.inner).
Proof.
  exists Scenario.regrouped. eexists.
  assert (Hrun : Apply_call (PyFromClause Sample.department)
            (PyFromClause (ApplyFC Sample.inner)) None Sample.world
          = (inr Scenario.regrouped,
             snd (Apply_call (PyFromClause Sample.department)
                    (PyFromClause (ApplyFC Sample.inner)) None
                    Sample.world))) by reflexivity.
  split; [exact Hrun|].
  destruct (constructed_sides _ _ _ _ _ _ Hrun) as (Hl & r & Hr & Hg).
  inversion Hr; subst r. split; [reflexivity|exact Hg].
Defined.

(** ** Identity of a constructed Apply *)

(** X2: when the arguments are objects that exist already, the new Apply
    has an identity that occurs nowhere in its sides, every identity of
    the new tree is below the next free one, and neither side derives
    from the new Apply: construction cannot close a cycle. *)
Theorem constructed_identity_fresh (left_ right_ : PyObject)
    (iso : option bool) (w w' : World) (a : Apply) (l r : FromClause) :
  coerce left_ = inr l → coerce right_ = inr r →
  Forall (λ o, o < next_oid w) (oids l ++ oids r) →
  Apply_call left_ right_ iso w = (inr a, w') →
  apply_oid a = next_oid w
  ∧ next_oid w < next_oid w'
  ∧ (apply_oid a ∉ oids (left a) ++ oids (right a))
  ∧ Forall (λ o, o < next_oid w') (oids (ApplyFC a))
  ∧ is_derived_from (left a) (ApplyFC a) = false
  ∧ is_derived_from (right a) (ApplyFC a) = false.
Proof.
  intros Hl Hr Hold Hrun.
  destruct (Apply_call_inv _ _ _ _ _ _ Hrun)
    as (r' & Hl' & Hr' & Hoid & _ & Hright).
  rewrite Hr in Hr'. inversion Hr'; subst r'. clear Hr'.
  rewrite Hl in Hl'. inversion Hl' as [Hleft]. clear Hl'.
  apply Forall_app in Hold as [Holdl Holdr].
  assert (Hsides : Forall (λ o, o < next_oid w') (oids (left a))
                   ∧ Forall (λ o, o < next_oid w') (oids (right a))
                   ∧ next_oid w < next_oid w'
                   ∧ (next_oid w ∉ oids (left a))
                   ∧ (next_oid w ∉ oids (right a))).
  { rewrite <- Hleft.
    assert (Hnl : next_oid w ∉ oids l).
    { intros Hin. rewrite Forall_forall in Holdl.
      specialize (Holdl _ Hin). lia. }
    assert (Hnr : next_oid w ∉ oids r).
    { intros Hin. rewrite Forall_forall in Holdr.
      specialize (Holdr _ Hin). lia. }
    destruct r as [o n cols|o e|b]; destruct Hright as [-> Hnext];
      rewrite Hnext; repeat split; try lia; try done;
      try (eapply Forall_impl; [eassumption|simpl; intros; lia]).
    - simpl. constructor; [lia|].
      eapply Forall_impl; [exact Holdr|simpl; intros; lia].
    - simpl. rewrite not_elem_of_cons. split; [lia|exact Hnr]. }
  destruct Hsides as (Hbl & Hbr & Hlt & Hnl & Hnr).
  rewrite Hoid. repeat split; try done.
  - rewrite not_elem_of_app. done.
  - destruct a as [o la ra b]. simpl in *. subst o.
    constructor; [done|]. apply Forall_app. done.
  - apply (proj1 is_derived_from_unrelated). simpl. by rewrite Hoid.
  - apply (proj1 is_derived_from_unrelated). simpl. by rewrite Hoid.
Qed.

Lemma constructed_identity_fresh_witness :
  is_derived_from
    (FromGrouping 21 (ApplyFC Sample.inner)) (ApplyFC Scenario.regrouped)
  = false.
Proof.
  assert (Hrun : Apply_call (PyFromClause Sample.department)
            (PyFromClause (ApplyFC Sample.inner)) None Sample.world
          = (inr Scenario.regrouped,
             snd (Apply_call (PyFromClause Sample.department)
                    (PyFromClause (ApplyFC Sample.inner)) None
                    Sample.world))) by reflexivity.
  refine (proj2 (proj2 (proj2 (proj2 (proj2
    (constructed_identity_fresh (PyFromClause Sample.department)
       (PyFromClause (ApplyFC Sample.inner)) None Sample.world _
       Scenario.regrouped Sample.department (ApplyFC Sample.inner)
       eq_refl eq_refl _ Hrun)))))).
  simpl. repeat constructor.
Defined.

(** ** The two public factories side by side *)

(** X3: on the same arguments in the same store, [apply] and [outerapply]
    fail together, with the same error and the same store, or succeed
    together; the two objects then have the same identity and the same
    sides and differ only in [isouter].  So [outerapply(l, r)] is
    [apply(l, r, isouter=True)]. *)
Theorem factories_agree (left_ right_ : PyObject) (w : World) :
  (∀ e w', apply left_ right_ None w = (inl e, w')
           ↔ outerapply left_ right_ w = (inl e, w'))
  ∧ (∀ a w', apply left_ right_ None w = (inr a, w') →
       ∃ w'', outerapply left_ right_ w
              = (inr (mkApply (apply_oid a) (left a) (right a) true), w'')
              ∧ isouter a = false
              ∧ next_oid w'' = next_oid w')
  ∧ outerapply left_ right_ w = apply left_ right_ (Some true) w.
Proof.
  split; [|split]; [| |reflexivity].
  - intros e w'. unfold apply, outerapply, _create_apply, _create_outerapply.
    destruct (coerce left_) as [el|l] eqn:Hl.
    { by rewrite !(Apply_call_left_refused _ _ _ _ _ Hl). }
    destruct (coerce right_) as [er|r] eqn:Hr.
    { by rewrite !(Apply_call_right_refused _ _ _ _ _ _ Hl Hr). }
    destruct (Apply_call_accepted left_ right_ (Some (default false None))
                w l r Hl Hr) as (g & w1 & Hrun1 & _).
    destruct (Apply_call_accepted left_ right_ (Some true) w l r Hl Hr)
      as (g' & w2 & Hrun2 & _).
    rewrite Hrun1, Hrun2. split; discriminate.
  - intros a w'. unfold apply, outerapply, _create_apply, _create_outerapply.
    intros Hrun.
    destruct (Apply_call_inv _ _ _ _ _ _ Hrun)
      as (r & Hl & Hr & Hoid & Hiso & Hright).
    revert Hrun. run_call. rewrite Hl. simpl. rewrite Hr.
    destruct r as [o n cols|o e|b]; simpl;
      rewrite !lookup_alter_eq, lookup_insert_eq; simpl;
      intros Hrun; inversion Hrun; subst; simpl;
      eexists; (split; [reflexivity|done]).
Qed.

(** ** From-objects, hidden from-objects and ancestry together *)

(** X4: for a node whose clone set is the node alone, the from-objects
    are the node followed by exactly its hidden from-objects; and whenever
    a node is in its own clone set, each of its from-objects is either
    the node or hidden by it. *)
Theorem from_objects_self_then_hidden
    (_cloned_set : Apply → list Apply) (a : Apply) :
  (_cloned_set a = [a] →
   _from_objects (ApplyFC a) = ApplyFC a :: _hide_froms _cloned_set a)
  ∧ (a ∈ _cloned_set a →
     ∀ f, f ∈ _from_objects (ApplyFC a) →
          f = ApplyFC a ∨ f ∈ _hide_froms _cloned_set a).
Proof.
  assert (Hfroms : _from_objects (ApplyFC a)
    = ApplyFC a :: _from_objects (left a) ++ _from_objects (right a)).
  { destruct a as [o l r b]. reflexivity. }
  split.
  - intros Hcs. rewrite Hfroms. unfold _hide_froms. rewrite Hcs.
    unfold sql_base._from_objects. simpl. by rewrite !app_nil_r.
  - intros Hself f Hf. rewrite Hfroms in Hf.
    apply elem_of_cons in Hf as [->|Hf]; [by left|]. right.
    unfold _hide_froms. apply list_elem_of_In, in_concat.
    exists (sql_base._from_objects [left a; right a]). split.
    + apply in_map_iff. exists a. split; [done|].
      by apply list_elem_of_In.
    + rewrite sql_base_from_objects_pair. by apply list_elem_of_In.
Qed.

Lemma from_objects_self_then_hidden_witness :
  _from_objects (ApplyFC Sample.nested)
  = ApplyFC Sample.nested :: _hide_froms Scenario.uncloned Sample.nested
  ∧ (Sample.department = ApplyFC Sample.nested
     ∨ Sample.department ∈ _hide_froms Sample.clones Sample.nested).
Proof.
  destruct (from_objects_self_then_hidden Scenario.uncloned Sample.nested)
    as [Hone _].
  destruct (from_objects_self_then_hidden Sample.clones Sample.nested)
    as [_ Hall].
  split.
  - apply Hone. reflexivity.
  - apply Hall.
    + apply list_elem_of_here.
    + simpl. do 3 apply list_elem_of_further. apply list_elem_of_here.
Defined.

(** X5: every from-object of a relation is a relation it derives from. *)
Theorem from_objects_are_ancestors :
  (∀ f x, x ∈ _from_objects f → is_derived_from f x = true)
  ∧ (∀ a x, x ∈ Apply_from_objects a → Apply_is_derived_from a x = true).
Proof.
  apply FromClause_Apply_ind.
  - intros o n cols x Hx. simpl in *.
    apply list_elem_of_singleton in Hx as ->. apply is_refl.
  - intros o e IH x Hx. simpl in *. by apply IH.
  - intros a IH x Hx. simpl in *. by apply IH.
  - intros o l IHl r IHr b x Hx. simpl in *.
    apply elem_of_cons in Hx as [->|Hx].
    + by rewrite is_refl.
    + apply elem_of_app in Hx as [Hx|Hx].
      * rewrite (IHl x Hx). by rewrite orb_true_r.
      * rewrite (IHr x Hx). by rewrite orb_true_r.
Qed.

Lemma from_objects_are_ancestors_witness :
  is_derived_from (ApplyFC Sample.nested) Sample.reports = true.
Proof.
  apply (proj1 from_objects_are_ancestors (ApplyFC Sample.nested)
           Sample.reports).
  simpl. do 4 apply list_elem_of_further. apply list_elem_of_here.
Defined.

(** ** More on column population *)

Lemma put_fresh (k : string) (c : Column) (m : list (string * Column)) :
  k ∉ m.*1 → put k c m = m ++ [(k, c)].
Proof.
  induction m as [|[k' c'] m IH]; csimpl; intros Hk; [done|].
  apply not_elem_of_cons in Hk as [Hne Hk].
  rewrite decide_False by done. by rewrite IH.
Qed.

Lemma populate_fresh (m items : list (string * Column)) :
  NoDup (m.*1 ++ items.*1) → _populate_separate_keys m items = m ++ items.
Proof.
  unfold _populate_separate_keys.
  revert m. induction items as [|[k c] items IH]; intros m Hnd; csimpl.
  - by rewrite app_nil_r.
  - csimpl in Hnd. rewrite put_fresh.
    + rewrite IH; [by rewrite <- app_assoc|].
      rewrite fmap_app. csimpl. by rewrite <- app_assoc.
    + apply NoDup_app in Hnd as (_ & Hdisj & _).
      intros Hin. apply (Hdisj _ Hin), list_elem_of_here.
Qed.

Lemma elem_of_put (k k' : string) (c c' : Column)
    (m : list (string * Column)) :
  (k', c') ∈ put k c m → (k', c') = (k, c) ∨ (k', c') ∈ m.
Proof.
  induction m as [|[k'' c''] m IH]; simpl.
  - intros Hin%list_elem_of_singleton. by left.
  - destruct (decide (k = k'')) as [->|Hne].
    + intros [Heq|Hin]%elem_of_cons; [by left|].
      right. by apply list_elem_of_further.
    + intros [Heq|Hin]%elem_of_cons.
      * right. rewrite Heq. apply list_elem_of_here.
      * destruct (IH Hin) as [?|?]; [by left|].
        right. by apply list_elem_of_further.
Qed.

Lemma elem_of_populate (k : string) (c : Column)
    (m items : list (string * Column)) :
  (k, c) ∈ _populate_separate_keys m items → (k, c) ∈ m ∨ (k, c) ∈ items.
Proof.
  unfold _populate_separate_keys.
  revert m. induction items as [|[k' c'] items IH]; intros m; simpl.
  - by left.
  - intros Hin. destruct (IH _ Hin) as [Hput|Hrest].
    + destruct (elem_of_put _ _ _ _ _ Hput) as [->|Hm]; [|by left].
      right. apply list_elem_of_here.
    + right. by apply list_elem_of_further.
Qed.

Lemma key_order_elem_of (ks : list string) (k : string) :
  k ∈ key_order ks ↔ k ∈ ks.
Proof.
  induction ks as [|k' ks IH]; simpl; [done|].
  rewrite !elem_of_cons, list_elem_of_filter, IH.
  destruct (decide (k = k')) as [->|Hne]; [by split; left|].
  split.
  - intros [?|[_ ?]]; [done|by right].
  - intros [?|?]; [done|by right].
Qed.

Lemma Apply_columns_unfold (a : Apply) :
  columns (ApplyFC a)
  = (_columns (_populate_column_collection a _init_collections)).*2.
Proof. destruct a as [o l r b]. reflexivity. Qed.

(** X6: when no two columns of the two sides carry the same label key,
    nothing is merged: the mapping holds every column of the left side
    and then every column of the right side, each under its own key, and
    the columns of the Apply are the columns of left followed by those of
    right. *)
Theorem populate_without_collision (a : Apply) :
  NoDup (_key_label <$> columns (left a) ++ columns (right a)) →
  _columns (_populate_column_collection a _init_collections)
  = (λ col, (_key_label col, col)) <$> columns (left a) ++ columns (right a)
  ∧ columns (ApplyFC a) = columns (left a) ++ columns (right a).
Proof.
  intros Hnd.
  assert (Hcols : _columns (_populate_column_collection a _init_collections)
    = (λ col, (_key_label col, col))
        <$> columns (left a) ++ columns (right a)).
  { rewrite populate_column_collection_unfold. simpl.
    rewrite populate_fresh; [done|]. csimpl.
    by rewrite <- list_fmap_compose. }
  split; [exact Hcols|].
  rewrite Apply_columns_unfold, Hcols, <- list_fmap_compose.
  apply list_fmap_id.
Qed.

Lemma populate_without_collision_witness :
  columns (ApplyFC (mkApply 7 Sample.audit Sample.reports true))
  = [Sample.col_b'; Sample.col_c].
Proof.
  apply (populate_without_collision
           (mkApply 7 Sample.audit Sample.reports true)).
  simpl. repeat constructor; rewrite ?elem_of_cons, ?elem_of_nil;
    intros H; repeat destruct H as [H|H]; discriminate || done.
Defined.

Lemma latest_keyed_elem (cs : list Column) (k : string) (c' : Column) :
  latest k ((λ col, (_key_label col, col)) <$> cs) = Some c'
  → _key_label c' = k ∧ c' ∈ cs.
Proof.
  induction cs as [|c0 rest IH]; csimpl; [done|].
  destruct (latest k _) as [c1|] eqn:Hrest.
  - intros Heq. inversion Heq; subst.
    destruct (IH eq_refl) as [? ?]. split; [done|].
    by apply list_elem_of_further.
  - destruct (decide (k = _key_label c0)) as [->|Hne]; [|done].
    intros Heq. inversion Heq; subst. split; [done|].
    apply list_elem_of_here.
Qed.

Lemma latest_keyed_found (cs : list Column) (c : Column) :
  c ∈ cs →
  is_Some (latest (_key_label c) ((λ col, (_key_label col, col)) <$> cs)).
Proof.
  induction cs as [|c0 rest IH]; csimpl.
  - intros Hin. by apply not_elem_of_nil in Hin.
  - intros [->|Hin]%elem_of_cons.
    + destruct (latest _ _); [by eexists|].
      rewrite decide_True by done. by eexists.
    + destruct (IH Hin) as [c1 ->]. by eexists.
Qed.

Lemma key_order_length (ks : list string) :
  length (key_order ks) ≤ length ks.
Proof.
  induction ks as [|k ks IH]; simpl; [lia|].
  pose proof (length_filter (λ k', k' ≠ k) (key_order ks)). lia.
Qed.

(** X7: the populated mapping only holds columns of the two sides, each
    stored under its own label key, and no key of a side is lost: every
    column of left and right finds a column with its key in the mapping.
    The Apply therefore never has more columns than its sides together. *)
Theorem populate_keeps_keys (a : Apply) :
  let consumed := columns (left a) ++ columns (right a) in
  let st := _populate_column_collection a _init_collections in
  (∀ k c, (k, c) ∈ _columns st → _key_label c = k ∧ c ∈ consumed)
  ∧ (∀ c, c ∈ consumed →
       ∃ c', get (_key_label c) (_columns st) = Some c'
             ∧ _key_label c' = _key_label c
             ∧ c' ∈ consumed)
  ∧ (∀ c, c ∈ columns (ApplyFC a) → c ∈ consumed)
  ∧ length (columns (ApplyFC a)) ≤ length consumed.
Proof.
  intros consumed st.
  assert (Hcols : _columns st = _populate_separate_keys []
            ((λ col, (_key_label col, col)) <$> consumed)).
  { unfold st. by rewrite populate_column_collection_unfold. }
  assert (Hstored : ∀ k c, (k, c) ∈ _columns st
                           → _key_label c = k ∧ c ∈ consumed).
  { intros k c Hin. rewrite Hcols in Hin.
    apply elem_of_populate in Hin as [Hin|Hin].
    - by apply not_elem_of_nil in Hin.
    - apply list_elem_of_fmap in Hin as (c0 & Heq & Hc0).
      inversion Heq; subst. done. }
  assert (Hvalues : ∀ c, c ∈ columns (ApplyFC a) → c ∈ consumed).
  { intros c. rewrite Apply_columns_unfold. fold st.
    intros Hin. apply list_elem_of_fmap in Hin as ([k c0] & -> & Hin).
    by apply (Hstored k c0). }
  split; [exact Hstored|]. split; [|split; [exact Hvalues|]].
  - intros c Hc. destruct (latest_keyed_found consumed c Hc) as [c' Hc'].
    exists c'. rewrite Hcols, get_populate, Hc'.
    destruct (latest_keyed_elem _ _ _ Hc') as [? ?]. done.
  - rewrite Apply_columns_unfold. fold st.
    rewrite length_fmap, <- (length_fmap fst), Hcols, populate_keys.
    csimpl. rewrite filter_fresh_nil, <- list_fmap_compose.
    etransitivity; [apply key_order_length|]. by rewrite length_fmap.
Qed.

Lemma populate_keeps_keys_witness :
  ∃ c', get "b" (_columns (_populate_column_collection Sample.inner
                             _init_collections)) = Some c'
        ∧ _key_label c' = "b"
        ∧ c' ∈ columns Sample.department ++ columns Sample.reports.
Proof.
  pose proof (populate_keeps_keys Sample.inner) as H.
  cbv zeta in H. destruct H as (_ & Hfound & _).
  apply (Hfound Sample.col_b). apply list_elem_of_further, list_elem_of_here.
Defined.

(** X8: population only adds foreign keys to those already collected,
    and which ones it adds depends on the columns of the two sides only:
    not on the order of the sides, not on [isouter], not on the identity
    of the node. *)
Theorem foreign_keys_grow_and_commute (a : Apply) (st : Collections) :
  foreign_keys st ⊆ foreign_keys (_populate_column_collection a st)
  ∧ (∀ o b,
       foreign_keys (_populate_column_collection
                       (mkApply o (right a) (left a) b) st)
       = foreign_keys (_populate_column_collection a st))
  ∧ (∀ fk, fk ∈ foreign_keys (_populate_column_collection a st)
           ↔ fk ∈ foreign_keys st
             ∨ ∃ c, c ∈ columns (left a) ++ columns (right a)
                    ∧ fk ∈ column_foreign_keys c).
Proof.
  rewrite populate_column_collection_unfold. simpl.
  split; [apply union_subseteq_l|]. split.
  - intros o b. f_equal.
    rewrite !fmap_app, !union_list_app_L. apply (comm_L (∪)).
  - intros fk. rewrite elem_of_union, elem_of_union_list.
    split; (intros [Hst|Hnew]; [by left|right]).
    + destruct Hnew as (X & HX & Hfk).
      apply list_elem_of_fmap in HX as (c & -> & Hc). by exists c.
    + destruct Hnew as (c & Hc & Hfk).
      exists (column_foreign_keys c). split; [|done].
      apply list_elem_of_fmap. by exists c.
Qed.

(** ** When [select] fails *)

(** X9: when the options name [from_obj], [select] fails with a type
    error, whatever the Apply, the criterion and the builder are: the
    call is refused before the builder is asked.  So a statement is only
    built from options that do not name [from_obj] and that the builder
    takes, and an error of the builder comes back unchanged. *)
Theorem Apply_select_refuses_from_obj
    (Select_refusal : list FromClause → PyObject → list FromClause
                      → gmap string PyObject → option Exception)
    (a : Apply) (where_ : option PyObject)
    (kwargs : gmap string PyObject) :
  (is_Some (kwargs !! "from_obj") →
   ∃ message,
     ∀ refusal, Apply_select refusal a where_ kwargs
                = inl (TypeError message))
  ∧ ((∃ s, Apply_select Select_refusal a where_ kwargs = inr s) →
     kwargs !! "from_obj" = None
     ∧ Select_refusal [left a; right a] (default PyNone where_)
         [ApplyFC a] kwargs = None)
  ∧ (∀ e, kwargs !! "from_obj" = None →
          Select_refusal [left a; right a] (default PyNone where_)
            [ApplyFC a] kwargs = Some e →
          Apply_select Select_refusal a where_ kwargs = inl e).
Proof.
  unfold Apply_select, Select_call.
  destruct (kwargs !! "from_obj") as [v|] eqn:Hk.
  - split; [|split].
    + intros _. eexists. intros refusal. reflexivity.
    + intros [s Hs]. discriminate.
    + intros e Hnone. discriminate.
  - split; [|split].
    + intros [v Hv]. discriminate.
    + intros [s Hs]. split; [done|].
      by destruct (Select_refusal _ _ _ _).
    + intros e _ He. by rewrite He.
Qed.

Lemma Apply_select_refuses_from_obj_witness :
  ∃ message,
    ∀ refusal,
      Apply_select refusal Scenario.regrouped
        (Some (PyBool true))
        {["from_obj" := PyFromClause Sample.reports;
          "distinct" := PyBool true]}
      = inl (TypeError message).
Proof.
  apply (Apply_select_refuses_from_obj Scenario.builder Scenario.regrouped
           (Some (PyBool true))
           {["from_obj" := PyFromClause Sample.reports;
             "distinct" := PyBool true]}).
  by eexists.
Defined.

(** ** Binding hint *)

Lemma head_app_or {A} (l1 l2 : list A) :
  head (l1 ++ l2) = match head l1 with Some x => Some x | None => head l2 end.
Proof. by destruct l1. Qed.

Lemma bind_head_of_sides (relation_bind : FromClause → option string) :
  (∀ f, FromClause_bind relation_bind f
        = head (omap relation_bind (sides f)))
  ∧ (∀ a, Apply_bind relation_bind a
          = head (omap relation_bind (Apply_sides a))).
Proof.
  apply FromClause_Apply_ind.
  - intros o n cols. simpl. by destruct (relation_bind _).
  - intros o e _. simpl. by destruct (relation_bind _).
  - intros a IH. simpl. exact IH.
  - intros o l IHl r IHr b. simpl.
    rewrite omap_app, head_app_or, <- IHl, <- IHr. reflexivity.
Qed.

(** X10: the bind of an Apply is the bind of the leftmost bound relation
    among those it reaches through Apply nodes.  It is [None] exactly
    when none of them is bound, it is never a bind that none of them
    carries, and a bound left side decides it whatever the right side
    is. *)
Theorem Apply_bind_sound (relation_bind : FromClause → option string)
    (a : Apply) :
  Apply_bind relation_bind a = head (omap relation_bind (Apply_sides a))
  ∧ (Apply_bind relation_bind a = None
     ↔ ∀ f, f ∈ Apply_sides a → relation_bind f = None)
  ∧ (∀ engine, Apply_bind relation_bind a = Some engine →
       ∃ f, f ∈ Apply_sides a ∧ relation_bind f = Some engine)
  ∧ (∀ engine, FromClause_bind relation_bind (left a) = Some engine →
       Apply_bind relation_bind a = Some engine).
Proof.
  destruct (bind_head_of_sides relation_bind) as [_ Hhead].
  split; [apply Hhead|]. rewrite Hhead. split; [|split].
  - split.
    + intros Hnone f Hf.
      destruct (relation_bind f) as [e|] eqn:Hb; [|done].
      assert (Hin : e ∈ omap relation_bind (Apply_sides a)).
      { apply list_elem_of_omap. by exists f. }
      destruct (omap relation_bind (Apply_sides a)); [|done].
      by apply not_elem_of_nil in Hin.
    + intros Hall.
      destruct (omap relation_bind (Apply_sides a)) as [|e rest] eqn:Hm;
        [done|].
      assert (Hin : e ∈ omap relation_bind (Apply_sides a)).
      { rewrite Hm. apply list_elem_of_here. }
      apply list_elem_of_omap in Hin as (f & Hf & Hb).
      rewrite (Hall f Hf) in Hb. discriminate.
  - intros engine Hsome.
    assert (Hin : engine ∈ omap relation_bind (Apply_sides a)).
    { destruct (omap relation_bind (Apply_sides a)) as [|e rest];
        [done|]. simpl in Hsome. inversion Hsome. apply list_elem_of_here. }
    apply list_elem_of_omap in Hin as (f & Hf & Hb). by exists f.
  - intros engine Hleft. rewrite <- Hhead.
    destruct a as [o l r b]. simpl in *. by rewrite Hleft.
Qed.

Lemma Apply_bind_sound_witness :
  Apply_bind
    (λ f, if is_ f Sample.department then Some "mssql://hr" else None)
    Sample.inner
  = Some "mssql://hr".
Proof.
  destruct (Apply_bind_sound
    (λ f, if is_ f Sample.department then Some "mssql://hr" else None)
    Sample.inner) as (_ & _ & _ & Hleft).
  apply Hleft. reflexivity.
Defined.

(** ** Grouping again *)

(** X11: [self_group] is not memoised.  Two calls in a row hand out two
    different grouping objects around the same Apply, and neither call
    touches the attributes of any object. *)
Theorem self_group_allocates_each_time (a : Apply)
    (against1 against2 : option string) (w : World) :
  ∃ g1 g2 w1 w2,
    self_group (ApplyFC a) against1 w = (inr g1, w1)
    ∧ self_group (ApplyFC a) against2 w1 = (inr g2, w2)
    ∧ g1 = FromGrouping (next_oid w) (ApplyFC a)
    ∧ g2 = FromGrouping (S (next_oid w)) (ApplyFC a)
    ∧ is_ g1 g2 = false
    ∧ instances w2 = instances w.
Proof.
  eexists _, _, _, _. split; [reflexivity|]. split; [reflexivity|].
  split; [reflexivity|]. split; [reflexivity|]. split; [|reflexivity].
  unfold is_. simpl. apply Nat.eqb_neq. lia.
Qed.

(** ** Where a new-column notification goes *)

(** A table given as both sides of an Apply is notified twice, once as
    the left side and once as the right side. *)
Example refresh_same_table_twice :
  (∃ w', apply (PyFromClause Sample.department)
           (PyFromClause Sample.department) None Sample.world
         = (inr Scenario.doubled, w'))
  ∧ notified (_refresh_for_new_column (ApplyFC Scenario.doubled)
                Sample.col_c)
    = [(1, Sample.col_c); (1, Sample.col_c)].
Proof. split; [eexists|]; reflexivity. Qed.

(** X12: a notification given to a relation runs the base refresh of
    every Apply node reached through Apply nodes, a parent before its
    children and left before right, and hands the same column to the
    other relations so reached, from left to right, once for every place
    that a relation takes in the tree: a relation that is both sides of
    an Apply is notified twice. *)
Theorem refresh_reaches_every_side (column : Column) :
  (∀ f, notified (_refresh_for_new_column f column)
        = (λ s, (id_ s, column)) <$> sides f
        ∧ base_refreshed (_refresh_for_new_column f column)
          = apply_nodes f)
  ∧ (∀ a, notified (Apply_refresh_for_new_column a column)
          = (λ s, (id_ s, column)) <$> Apply_sides a
          ∧ base_refreshed (Apply_refresh_for_new_column a column)
            = Apply_apply_nodes a).
Proof.
  apply FromClause_Apply_ind.
  - intros o n cols. done.
  - intros o e _. done.
  - intros a IH. exact IH.
  - intros o l [IHl1 IHl2] r [IHr1 IHr2] b. simpl.
    unfold notified, base_refreshed in *. csimpl.
    rewrite !omap_app, IHl1, IHr1, IHl2, IHr2, fmap_app. done.
Qed.

(** ** Populating twice *)

Lemma get_fresh (k : string) (m : list (string * Column)) :
  k ∉ m.*1 → get k m = None.
Proof.
  induction m as [|[k' c'] m IH]; csimpl; [done|].
  intros [Hne Hk]%not_elem_of_cons. rewrite decide_False by done.
  by apply IH.
Qed.

Lemma mapping_ext (m1 m2 : list (string * Column)) :
  NoDup m1.*1 → m1.*1 = m2.*1 → (∀ k, get k m1 = get k m2) → m1 = m2.
Proof.
  revert m2. induction m1 as [|[k1 c1] m1 IH]; intros [|[k2 c2] m2];
    csimpl; try done.
  intros [Hk1 Hnd]%NoDup_cons Hkeys Hget.
  inversion Hkeys as [[Hk Htail]]. subst k2.
  assert (Hc : c1 = c2).
  { specialize (Hget k1). rewrite !decide_True in Hget by done.
    by inversion Hget. }
  subst c2. f_equal. apply IH; [done|done|].
  intros k. destruct (decide (k = k1)) as [->|Hne].
  - rewrite !get_fresh; [done| |done]. by rewrite <- Htail.
  - specialize (Hget k). by rewrite !decide_False in Hget by done.
Qed.

Lemma filter_seen_nil (seen l : list string) :
  (∀ k, k ∈ l → k ∈ seen) → filter (λ k', k' ∉ seen) l = [].
Proof.
  induction l as [|x l IH]; intros Hall; [done|].
  rewrite filter_cons, decide_False.
  - apply IH. intros k Hk. apply Hall. by apply list_elem_of_further.
  - intros Hx. apply Hx, Hall, list_elem_of_here.
Qed.

Lemma populate_NoDup (m items : list (string * Column)) :
  NoDup m.*1 → NoDup (_populate_separate_keys m items).*1.
Proof.
  intros Hnd. rewrite populate_keys. apply NoDup_app. split; [done|].
  split.
  - intros k Hk Hin. apply list_elem_of_filter in Hin as [Hfresh _]. done.
  - apply NoDup_filter, key_order_NoDup.
Qed.

Lemma populate_twice (m items : list (string * Column)) :
  NoDup m.*1 →
  _populate_separate_keys (_populate_separate_keys m items) items
  = _populate_separate_keys m items.
Proof.
  intros Hnd. apply mapping_ext.
  - by apply populate_NoDup, populate_NoDup.
  - rewrite (populate_keys (_populate_separate_keys m items)).
    rewrite filter_seen_nil; [by rewrite app_nil_r|].
    intros k Hk. rewrite populate_keys.
    destruct (decide (k ∈ m.*1)) as [Hm|Hm].
    + apply elem_of_app. by left.
    + apply elem_of_app. right. apply list_elem_of_filter.
      split; [exact Hm|exact Hk].
  - intros k. rewrite !get_populate. by destruct (latest k items).
Qed.

(** X13: populating is idempotent.  Running the population of an Apply
    again on the collections it has populated, as a redundant refresh
    does, changes neither the column mapping nor the foreign keys. *)
Theorem populate_idempotent (a : Apply) (st : Collections) :
  NoDup (_columns st).*1 →
  _populate_column_collection a (_populate_column_collection a st)
  = _populate_column_collection a st.
Proof.
  intros Hnd. rewrite !populate_column_collection_unfold. simpl.
  rewrite populate_twice by done. f_equal.
  rewrite <- (assoc_L (∪)). f_equal. apply (idemp_L (∪)).
Qed.

Lemma populate_idempotent_witness :
  _populate_column_collection Sample.inner
    (_populate_column_collection Sample.inner _init_collections)
  = _populate_column_collection Sample.inner _init_collections.
Proof.
  apply (populate_idempotent Sample.inner _init_collections).
  simpl. constructor.
Defined.

(** ** The iteration order of the clone set *)

Lemma concat_map_Permutation {A B} (g : A → list B) (l1 l2 : list A) :
  l1 ≡ₚ l2 → concat (map g l1) ≡ₚ concat (map g l2).
Proof.
  intros Hperm.
  induction Hperm as [|x l1 l2 _ IH|x y l|l1 l2 l3 _ IH1 _ IH2]; simpl.
  - done.
  - by apply Permutation_app_head.
  - rewrite !app_assoc. apply Permutation_app_tail, Permutation_app_comm.
  - by etransitivity.
Qed.

(** X14: the clone set is a set, and the order in which it is iterated
    does not matter for what is hidden: two enumerations of the same
    clones give the same hidden from-objects, each as many times, only in
    another order. *)
Theorem hide_froms_order_irrelevant
    (clones1 clones2 : Apply → list Apply) (a : Apply) :
  clones1 a ≡ₚ clones2 a →
  _hide_froms clones1 a ≡ₚ _hide_froms clones2 a
  ∧ ∀ f, f ∈ _hide_froms clones1 a ↔ f ∈ _hide_froms clones2 a.
Proof.
  intros Hperm.
  assert (Hall : _hide_froms clones1 a ≡ₚ _hide_froms clones2 a).
  { unfold _hide_froms. by apply concat_map_Permutation. }
  split; [exact Hall|]. intros f. by rewrite Hall.
Qed.

Lemma hide_froms_order_irrelevant_witness :
  Sample.department
    ∈ _hide_froms (λ a, [Sample.inner; a]) Sample.nested.
Proof.
  destruct (hide_froms_order_irrelevant Sample.clones
              (λ a, [Sample.inner; a]) Sample.nested) as [_ Hsame].
  - apply perm_swap.
  - apply Hsame. simpl.
    do 2 apply list_elem_of_further. apply list_elem_of_here.
Defined.
